(** * Verification of SHA-256.py ([sha256_simple])

    Shallow embedding of the Python function [sha256_simple] and of its
    nested helpers [to_binary], [pad_message], [create_chunks],
    [create_words] and [rightrotate].

    Data representation:
    - a Python [str] argument is a list of code points ([list N], what
      [ord] returns for each character);
    - the intermediate bit strings of the source (Python strings over the
      characters '0' and '1') are [list bool], [true] standing for '1';
    - Python integers are [Z]; [>>], [<<], [|], [&], [^] and [~] are
      [Z.shiftr], [Z.shiftl], [Z.lor], [Z.land], [Z.lxor] and [Z.lnot],
      which agree with Python's semantics on unbounded integers;
    - [int(s, 2)] raises [ValueError] on the empty string: fallible steps
      return [option], [None] standing for a raised exception. *)

From Stdlib Require Import Ascii String NArith ZArith Bool List Lia ZifyNat.
Import ListNotations.
Open Scope Z_scope.

(** ** Python number formatting *)

(** Digits of [n] in base [base], least significant first, as produced by
    repeated division until the quotient is zero.  [fuel] bounds the
    number of divisions. *)
Fixpoint digits_rev (fuel : nat) (base n : Z) : list Z :=
  match fuel with
  | O => []
  | S fuel' =>
      if n =? 0 then [] else n mod base :: digits_rev fuel' base (n / base)
  end.

(** Digits of a nonnegative integer, most significant first, without
    leading zeros; zero has the single digit 0 (Python's [format(0, 'b')]
    is ["0"]).  A number has at most [Z.log2 n + 1] digits in any base
    [>= 2], which is the fuel given. *)
Definition py_digits (base n : Z) : list Z :=
  if n =? 0 then [0]
  else rev (digits_rev (S (Z.to_nat (Z.log2 n))) base n).

(** [f"{n:0<w>b}"]: binary digits left-padded with '0' to width [w]. *)
Definition format_bin (w : nat) (n : Z) : list bool :=
  let ds := py_digits 2 n in
  repeat false (w - length ds) ++ map (fun d => d =? 1) ds.

(** Lowercase hexadecimal digit character of [0 <= d < 16]. *)
Definition hex_char (d : Z) : ascii :=
  ascii_of_nat (Z.to_nat (if d <? 10 then 48 + d else 87 + d)).

(** [f"{n:0<w>x}"]: lowercase hex digits left-padded with '0' to width [w]. *)
Definition format_hex (w : nat) (n : Z) : list ascii :=
  let ds := py_digits 16 n in
  repeat "0"%char (w - length ds) ++ map hex_char ds.

(** [int(s, 2)]: [ValueError] on the empty string. *)
Definition int_base2 (s : list bool) : option Z :=
  match s with
  | [] => None
  | _ => Some (fold_left (fun acc (bit : bool) => 2 * acc + (if bit then 1 else 0)) s 0)
  end.

(** Python slice [s[i:i+n]]. *)
Definition slice {A} (s : list A) (i n : nat) : list A := firstn n (skipn i s).

(** ** Step 1: [to_binary] *)

Definition to_binary (msg : list N) : list bool :=
  concat (map (fun c => format_bin 8 (Z.of_N c)) msg).

(** ** Step 2: [pad_message] *)

(** The [while (len(bin_msg) + 64) % 512 != 0: bin_msg += '0'] loop;
    it exits after at most 511 iterations, so fuel 512 never runs out. *)
Fixpoint pad_zeros (fuel : nat) (bin_msg : list bool) : list bool :=
  match fuel with
  | O => bin_msg
  | S fuel' =>
      if Nat.eqb ((length bin_msg + 64) mod 512) 0 then bin_msg
      else pad_zeros fuel' (bin_msg ++ [false])
  end.

Definition pad_message (bin_msg : list bool) : list bool :=
  let original_len := length bin_msg in
  let bin_msg := bin_msg ++ [true] in
  let bin_msg := pad_zeros 512 bin_msg in
  bin_msg ++ format_bin 64 (Z.of_nat original_len).

(** ** Step 3: [create_chunks] *)

(** [[padded_msg[i:i+512] for i in range(0, len(padded_msg), 512)]];
    the fuel is the length of the string, one chunk per step at least. *)
Fixpoint chunks_aux (fuel : nat) (s : list bool) : list (list bool) :=
  match fuel with
  | O => []
  | S fuel' =>
      match s with
      | [] => []
      | _ => firstn 512 s :: chunks_aux fuel' (skipn 512 s)
      end
  end.

Definition create_chunks (padded_msg : list bool) : list (list bool) :=
  chunks_aux (length padded_msg) padded_msg.

(** ** [create_words] *)

Definition mask32 : Z := 0xFFFFFFFF.

(** The two mixing expressions of the loop body, written as in the source:
    the rotations are not masked there. *)
Definition s0_code (x : Z) : Z :=
  Z.lxor (Z.lxor (Z.lor (Z.shiftr x 7) (Z.shiftl x (32 - 7)))
                 (Z.lor (Z.shiftr x 18) (Z.shiftl x (32 - 18))))
         (Z.shiftr x 3).

Definition s1_code (x : Z) : Z :=
  Z.lxor (Z.lxor (Z.lor (Z.shiftr x 17) (Z.shiftl x (32 - 17)))
                 (Z.lor (Z.shiftr x 19) (Z.shiftl x (32 - 19))))
         (Z.shiftr x 10).

(** Python's negative index [words[-k]]. *)
Definition at_neg (words : list Z) (k : nat) : Z := nth (length words - k) words 0.

(** The [while len(words) < 64] loop; 48 iterations are needed from the
    16 initial words, fuel 64 covers them. *)
Fixpoint extend_words (fuel : nat) (words : list Z) : list Z :=
  match fuel with
  | O => words
  | S fuel' =>
      if Nat.ltb (length words) 64 then
        let s0 := s0_code (at_neg words 15) in
        let s1 := s1_code (at_neg words 2) in
        extend_words fuel'
          (words ++ [Z.land (at_neg words 16 + s0 + at_neg words 7 + s1) mask32])
      else words
  end.

(** [[int(chunk[i:i+32], 2) for i in range(0, 512, 32)]] *)
Fixpoint parse_words (idx : list nat) (chunk : list bool) : option (list Z) :=
  match idx with
  | [] => Some []
  | i :: idx' =>
      match int_base2 (slice chunk i 32), parse_words idx' chunk with
      | Some v, Some vs => Some (v :: vs)
      | _, _ => None
      end
  end.

Definition create_words (chunk : list bool) : option (list Z) :=
  match parse_words (map (fun j => 32 * j)%nat (seq 0 16)) chunk with
  | Some words => Some (extend_words 64 words)
  | None => None
  end.

(** ** Step 4: constants *)

(** The round constants of the source's [K] literal, in its order (the
    [_] only groups the hex digits). *)
Definition K : list Z :=
  [0x428a_2f98; 0x7137_4491; 0xb5c0_fbcf; 0xe9b5_dba5; 0x3956_c25b; 0x59f1_11f1; 0x923f_82a4; 0xab1c_5ed5;
   0xd807_aa98; 0x1283_5b01; 0x2431_85be; 0x550c_7dc3; 0x72be_5d74; 0x80de_b1fe; 0x9bdc_06a7; 0xc19b_f174;
   0xe49b_69c1; 0xefbe_4786; 0x0fc1_9dc6; 0x240c_a1cc; 0x2de9_2c6f; 0x4a74_84aa; 0x5cb0_a9dc; 0x76f9_88da;
   0x983e_5152; 0xa831_c66d; 0xb003_27c8; 0xbf59_7fc7; 0xc6e0_0bf3; 0xd5a7_9147; 0x06ca_6351; 0x1429_2967;
   0x27b7_0a85; 0x2e1b_2138; 0x4d2c_6dfc; 0x5338_0d13; 0x650a_7354; 0x766a_0abb; 0x81c2_c92e; 0x9272_2c85;
   0xa2bf_e8a1; 0xa81a_664b; 0xc24b_8b70; 0xc76c_51a3; 0xd192_e819; 0xd699_0624; 0xf40e_3585; 0x106a_a070;
   0x19a4_c116; 0x1e37_6c08; 0x2748_774c; 0x34b0_bcb5; 0x391c_0cb3; 0x4ed8_aa4a; 0x5b9c_ca4f; 0x682e_6ff3;
   0x748f_82ee; 0x78a5_636f; 0x84c8_7814; 0x8cc7_0208; 0x90be_fffa; 0xa450_6ceb; 0xbef9_a3f7; 0xc671_78f2].

(** The source's initial [H] literal. *)
Definition H_init : list Z :=
  [0x6a09_e667; 0xbb67_ae85; 0x3c6e_f372; 0xa54f_f53a; 0x510e_527f; 0x9b05_688c; 0x1f83_d9ab; 0x5be0_cd19].

Definition rightrotate (x n : Z) : Z :=
  Z.land (Z.lor (Z.shiftr x n) (Z.shiftl x (32 - n))) mask32.

(** ** Step 5: compression *)

(** The working variables [a, b, c, d, e, f, g, h]. *)
Inductive regs := Regs (a b c d e f g h : Z).

(** The 'choose' function of line 85, [~e] being Python's [~]. *)
Definition ch_code (e f g : Z) : Z := Z.lxor (Z.land e f) (Z.land (Z.lnot e) g).

Definition maj_code (a b c : Z) : Z :=
  Z.lxor (Z.lxor (Z.land a b) (Z.land a c)) (Z.land b c).

(** One iteration of [for i in range(64)]. *)
Definition round (w : list Z) (r : regs) (i : nat) : regs :=
  let '(Regs a b c d e f g h) := r in
  let S1 := Z.lxor (Z.lxor (rightrotate e 6) (rightrotate e 11)) (rightrotate e 25) in
  let ch := ch_code e f g in
  let temp1 := Z.land (h + S1 + ch + nth i K 0 + nth i w 0) mask32 in
  let S0 := Z.lxor (Z.lxor (rightrotate a 2) (rightrotate a 13)) (rightrotate a 22) in
  let maj := maj_code a b c in
  let temp2 := Z.land (S0 + maj) mask32 in
  Regs (Z.land (temp1 + temp2) mask32) a b c (Z.land (d + temp1) mask32) e f g.

(** The body of [for chunk in chunks]; [a, b, ..., h = H] raises unless
    [H] has eight entries. *)
Definition compress (H : list Z) (chunk : list bool) : option (list Z) :=
  match create_words chunk with
  | None => None
  | Some w =>
      match H with
      | [a; b; c; d; e; f; g; h] =>
          let '(Regs a b c d e f g h) := fold_left (round w) (seq 0 64) (Regs a b c d e f g h) in
          Some (map (fun '(x, y) => Z.land (x + y) mask32) (combine H [a; b; c; d; e; f; g; h]))
      | _ => None
      end
  end.

(** [for chunk in chunks: ...], in order, threading [H]. *)
Definition process_chunks (H : list Z) (chunks : list (list bool)) : option (list Z) :=
  fold_left (fun acc chunk =>
               match acc with
               | Some H => compress H chunk
               | None => None
               end) chunks (Some H).

(** ** Step 6: output *)

Definition hexdigest (H : list Z) : string :=
  string_of_list_ascii (concat (map (format_hex 8) H)).

Definition sha256_simple (message : list N) : option string :=
  let bin_msg := to_binary message in
  let padded := pad_message bin_msg in
  let chunks := create_chunks padded in
  match process_chunks H_init chunks with
  | Some H => Some (hexdigest H)
  | None => None
  end.

(** ** Definitions following the spec's words *)

(** Big-endian [w]-digit representation of [n] in base [base]: digit [j]
    (from the left) is [(n / base^(w-1-j)) mod base]. *)
Fixpoint be_digits (base : Z) (w : nat) (n : Z) : list Z :=
  match w with
  | O => []
  | S w' => (n / base ^ Z.of_nat w') mod base :: be_digits base w' n
  end.

(** [n] as a [w]-bit unsigned big-endian bit string. *)
Definition be_bits (w : nat) (n : Z) : list bool := map (fun d => d =? 1) (be_digits 2 w n).

(** A 32-bit word as 8 lowercase hex characters, most significant first. *)
Definition hex8 (v : Z) : list ascii := map hex_char (be_digits 16 8 v).

Definition is_lower_hex (ch : ascii) : bool :=
  let n := nat_of_ascii ch in
  (Nat.leb 48 n && Nat.leb n 57) || (Nat.leb 97 n && Nat.leb n 102).

Definition word32 (x : Z) : Prop := 0 <= x < 2 ^ 32.

(** Circular right rotation of a 32-bit value: the low [n] bits move to
    the top. *)
Definition rotr (x n : Z) : Z := Z.lor (Z.shiftr x n) (Z.shiftl (x mod 2 ^ n) (32 - n)).

Definition shr (x n : Z) : Z := Z.shiftr x n.

(** 32-bit complement. *)
Definition not32 (x : Z) : Z := Z.lxor x (Z.ones 32).

Definition sigma0 (x : Z) : Z := Z.lxor (Z.lxor (rotr x 7) (rotr x 18)) (shr x 3).
Definition sigma1 (x : Z) : Z := Z.lxor (Z.lxor (rotr x 17) (rotr x 19)) (shr x 10).
Definition Sigma0 (x : Z) : Z := Z.lxor (Z.lxor (rotr x 2) (rotr x 13)) (rotr x 22).
Definition Sigma1 (x : Z) : Z := Z.lxor (Z.lxor (rotr x 6) (rotr x 11)) (rotr x 25).
Definition Ch (e f g : Z) : Z := Z.lxor (Z.land e f) (Z.land (not32 e) g).
Definition Maj (a b c : Z) : Z := Z.lxor (Z.lxor (Z.land a b) (Z.land a c)) (Z.land b c).

(** One compression round as the spec (section 4.4) states it. *)
Definition round_spec (W : list Z) (r : regs) (i : nat) : regs :=
  let '(Regs a b c d e f g h) := r in
  let temp1 := (h + Sigma1 e + Ch e f g + nth i K 0 + nth i W 0) mod 2 ^ 32 in
  let temp2 := (Sigma0 a + Maj a b c) mod 2 ^ 32 in
  Regs ((temp1 + temp2) mod 2 ^ 32) a b c ((d + temp1) mod 2 ^ 32) e f g.

Definition regs_list (r : regs) : list Z :=
  let '(Regs a b c d e f g h) := r in [a; b; c; d; e; f; g; h].

(** The compressor of the spec: 64 rounds from [a..h = H[0..7]], then
    [H[k] = (H[k] + {a..h}[k]) mod 2^32]. *)
Definition compress_spec (H W : list Z) : list Z :=
  let r := fold_left (round_spec W) (seq 0 64)
             (Regs (nth 0 H 0) (nth 1 H 0) (nth 2 H 0) (nth 3 H 0)
                   (nth 4 H 0) (nth 5 H 0) (nth 6 H 0) (nth 7 H 0)) in
  map (fun k => (nth k H 0 + nth k (regs_list r) 0) mod 2 ^ 32) (seq 0 8).

(** All eight working variables are 32-bit words. *)
Definition regs_ok (r : regs) : Prop := Forall word32 (regs_list r).

(** Messages given as ASCII text. *)
Definition ascii_msg (s : string) : list N :=
  map (fun ch => N.of_nat (nat_of_ascii ch)) (list_ascii_of_string s).

(** * Lemmas *)

Ltac nlia := zify; Z.to_euclidean_division_equations; lia.

Section Digits.

Variable base : Z.
Hypothesis base_ge2 : 2 <= base.

Lemma be_digits_snoc w n :
  0 <= n -> be_digits base (S w) n = be_digits base w (n / base) ++ [n mod base].
Proof.
  intros Hn. induction w as [|w IH].
  - cbn [be_digits app Z.of_nat]. rewrite Z.pow_0_r, Z.div_1_r. reflexivity.
  - change (be_digits base (S (S w)) n)
      with ((n / base ^ Z.of_nat (S w)) mod base :: be_digits base (S w) n).
    rewrite IH. simpl be_digits at 2. simpl app. f_equal.
    rewrite Nat2Z.inj_succ, Z.pow_succ_r by lia.
    rewrite Z.div_div by (try apply Z.pow_pos_nonneg; lia).
    now rewrite Z.mul_comm.
Qed.

Lemma be_digits_zero w : be_digits base w 0 = repeat 0 w.
Proof.
  induction w as [|w IH]; simpl; [reflexivity|].
  rewrite IH, Z.div_0_l, Z.mod_0_l; try reflexivity; try lia;
    apply Z.pow_nonzero; lia.
Qed.

Lemma digits_rev_pad fuel : forall w n,
  0 <= n < base ^ Z.of_nat w -> n < base ^ Z.of_nat fuel ->
  (length (digits_rev fuel base n) <= w)%nat /\
  be_digits base w n =
    repeat 0 (w - length (digits_rev fuel base n))%nat ++ rev (digits_rev fuel base n).
Proof.
  induction fuel as [|fuel IH]; intros w n Hw Hf.
  - simpl in *. assert (n = 0) by lia. subst.
    rewrite be_digits_zero, app_nil_r, Nat.sub_0_r. split; [lia|reflexivity].
  - simpl digits_rev. destruct (Z.eqb_spec n 0) as [->|Hn0].
    + simpl. rewrite be_digits_zero, app_nil_r, Nat.sub_0_r. split; [lia|reflexivity].
    + destruct w as [|w].
      * simpl in Hw. lia.
      * assert (Hq : 0 <= n / base < base ^ Z.of_nat w).
        { split; [apply Z.div_pos; lia|].
          apply Z.div_lt_upper_bound; [lia|].
          rewrite <- Z.pow_succ_r, <- Nat2Z.inj_succ by lia. lia. }
        assert (Hqf : n / base < base ^ Z.of_nat fuel).
        { apply Z.div_lt_upper_bound; [lia|].
          rewrite <- Z.pow_succ_r, <- Nat2Z.inj_succ by lia. lia. }
        destruct (IH w (n / base) Hq Hqf) as [Hlen Heq].
        rewrite be_digits_snoc by lia. rewrite Heq. simpl length. simpl rev.
        split; [lia|].
        rewrite <- app_assoc. f_equal.
Qed.

Lemma log2_digits_bound n : 0 < n -> n < base ^ Z.of_nat (S (Z.to_nat (Z.log2 n))).
Proof.
  intros Hn. destruct (Z.log2_spec n Hn) as [_ Hup].
  eapply Z.lt_le_trans; [exact Hup|].
  rewrite Nat2Z.inj_succ, Z2Nat.id by (apply Z.log2_nonneg).
  apply Z.pow_le_mono_l. split; lia.
Qed.

Lemma py_digits_pad w n :
  (1 <= w)%nat -> 0 <= n < base ^ Z.of_nat w ->
  (length (py_digits base n) <= w)%nat /\
  be_digits base w n = repeat 0 (w - length (py_digits base n))%nat ++ py_digits base n.
Proof.
  intros Hw Hn. unfold py_digits. destruct (Z.eqb_spec n 0) as [->|Hn0].
  - rewrite be_digits_zero. simpl length. split; [lia|].
    destruct w as [|w]; [lia|]. simpl. rewrite Nat.sub_0_r.
    rewrite repeat_cons. reflexivity.
  - rewrite length_rev. apply digits_rev_pad; [lia|].
    apply log2_digits_bound. lia.
Qed.

Lemma be_digits_length w n : length (be_digits base w n) = w.
Proof. induction w; simpl; congruence. Qed.

Lemma be_digits_range w n : Forall (fun d => 0 <= d < base) (be_digits base w n).
Proof.
  induction w as [|w IH]; simpl; constructor; auto.
  apply Z.mod_pos_bound. lia.
Qed.

End Digits.

Lemma format_bin_be w n :
  (1 <= w)%nat -> 0 <= n < 2 ^ Z.of_nat w -> format_bin w n = be_bits w n.
Proof.
  intros Hw Hn. unfold format_bin, be_bits.
  destruct (py_digits_pad 2 ltac:(lia) w n Hw Hn) as [_ ->].
  rewrite map_app, map_repeat. reflexivity.
Qed.

Lemma format_hex_be w n :
  (1 <= w)%nat -> 0 <= n < 16 ^ Z.of_nat w ->
  format_hex w n = map hex_char (be_digits 16 w n).
Proof.
  intros Hw Hn. unfold format_hex.
  destruct (py_digits_pad 16 ltac:(lia) w n Hw Hn) as [_ ->].
  rewrite map_app, map_repeat. reflexivity.
Qed.

Lemma be_bits_length w n : length (be_bits w n) = w.
Proof. unfold be_bits. rewrite length_map. apply be_digits_length. Qed.

(** ** Padding *)

Lemma pad_zeros_spec fuel : forall l,
  ((512 - (length l + 64) mod 512) mod 512 <= fuel)%nat ->
  pad_zeros fuel l = l ++ repeat false ((512 - (length l + 64) mod 512) mod 512).
Proof.
  induction fuel as [|fuel IH]; intros l Hf.
  - cbn [pad_zeros].
    replace ((512 - (length l + 64) mod 512) mod 512)%nat with 0%nat by lia.
    cbn [repeat]. now rewrite app_nil_r.
  - cbn [pad_zeros]. destruct (Nat.eqb_spec ((length l + 64) mod 512) 0) as [H0|H0].
    + replace ((512 - (length l + 64) mod 512) mod 512)%nat with 0%nat
        by (rewrite H0; reflexivity).
      cbn [repeat]. now rewrite app_nil_r.
    + rewrite IH; rewrite length_app; cbn [length].
      * rewrite <- app_assoc. f_equal.
        replace ((512 - (length l + 64) mod 512) mod 512)%nat
          with (S ((512 - (length l + 1 + 64) mod 512) mod 512)) by nlia.
        reflexivity.
      * nlia.
Qed.

Lemma pad_message_shape bits :
  Z.of_nat (length bits) < 2 ^ 64 ->
  pad_message bits =
    bits ++ [true] ++ repeat false ((512 - (length bits + 65) mod 512) mod 512)
         ++ be_bits 64 (Z.of_nat (length bits)).
Proof.
  intros Hb. unfold pad_message.
  rewrite pad_zeros_spec by (rewrite length_app; simpl length; nlia).
  rewrite format_bin_be by lia.
  rewrite length_app. simpl length.
  replace (length bits + 1 + 64)%nat with (length bits + 65)%nat by lia.
  now rewrite <- !app_assoc.
Qed.

Lemma pad_message_length bits :
  Z.of_nat (length bits) < 2 ^ 64 ->
  length (pad_message bits) =
    (length bits + 65 + (512 - (length bits + 65) mod 512) mod 512)%nat.
Proof.
  intros Hb. rewrite pad_message_shape by exact Hb.
  rewrite !length_app, repeat_length, be_bits_length. simpl length. lia.
Qed.

Lemma pad_message_length_mod bits :
  Z.of_nat (length bits) < 2 ^ 64 ->
  (length (pad_message bits) mod 512 = 0 /\ length bits + 65 <= length (pad_message bits))%nat.
Proof. intros Hb. rewrite pad_message_length by exact Hb. split; nlia. Qed.

Lemma to_binary_bytes msg :
  Forall (fun c => (c < 256)%N) msg ->
  to_binary msg = concat (map (fun c => be_bits 8 (Z.of_N c)) msg).
Proof.
  induction 1 as [|c msg Hc _ IH]; [reflexivity|].
  unfold to_binary in *. cbn [map concat]. rewrite IH. f_equal.
  apply format_bin_be; [lia|]. change (2 ^ Z.of_nat 8) with 256. lia.
Qed.

Lemma concat_bytes_length msg :
  length (concat (map (fun c => be_bits 8 (Z.of_N c)) msg)) = (8 * length msg)%nat.
Proof.
  induction msg as [|c msg IH]; [reflexivity|].
  cbn [map concat]. rewrite length_app, be_bits_length, IH. cbn [length]. lia.
Qed.

(** ** 32-bit words and bitwise operations *)

Lemma mask32_ones : mask32 = Z.ones 32.
Proof. reflexivity. Qed.

Lemma land_mask32 z : Z.land z mask32 = z mod 2 ^ 32.
Proof. rewrite mask32_ones. apply Z.land_ones. lia. Qed.

Lemma mod32_word z : word32 (z mod 2 ^ 32).
Proof. unfold word32. apply Z.mod_pos_bound. lia. Qed.

Lemma land_mask32_word z : word32 (Z.land z mask32).
Proof. rewrite land_mask32. apply mod32_word. Qed.

Lemma bits32_high x i : word32 x -> 32 <= i -> Z.testbit x i = false.
Proof.
  intros Hx Hi. rewrite <- (Z.mod_small x (2 ^ 32)) by exact Hx.
  apply Z.mod_pow2_bits_high. lia.
Qed.

Lemma word32_of_bits v :
  0 <= v -> (forall i, 32 <= i -> Z.testbit v i = false) -> word32 v.
Proof.
  intros Hv Hbits.
  assert (Heq : v mod 2 ^ 32 = v).
  { apply Z.bits_inj'. intros i Hi. destruct (Z.ltb_spec i 32).
    - apply Z.mod_pow2_bits_low. lia.
    - rewrite Z.mod_pow2_bits_high by lia. symmetry. apply Hbits. lia. }
  rewrite <- Heq. apply mod32_word.
Qed.

Lemma land_lxor_distr a b m : Z.land (Z.lxor a b) m = Z.lxor (Z.land a m) (Z.land b m).
Proof.
  apply Z.bits_inj'. intros i Hi.
  rewrite Z.land_spec, !Z.lxor_spec, !Z.land_spec.
  destruct (Z.testbit a i), (Z.testbit b i), (Z.testbit m i); reflexivity.
Qed.

(** The source's [rightrotate] (masked) is the circular rotation. *)
Lemma rightrotate_rotr x n : word32 x -> 0 < n < 32 -> rightrotate x n = rotr x n.
Proof.
  intros Hx Hn. unfold rightrotate, rotr. rewrite mask32_ones.
  apply Z.bits_inj'. intros i Hi.
  rewrite Z.land_spec, !Z.lor_spec, !Z.shiftr_spec, !Z.shiftl_spec by lia.
  rewrite Z.testbit_ones_nonneg by lia.
  destruct (Z.ltb_spec i 32).
  - rewrite andb_true_r. f_equal. destruct (Z.ltb_spec (i - (32 - n)) 0).
    + rewrite !Z.testbit_neg_r by lia. reflexivity.
    + rewrite Z.mod_pow2_bits_low by lia. reflexivity.
  - rewrite andb_false_r. rewrite (bits32_high x) by (try exact Hx; lia).
    rewrite Z.mod_pow2_bits_high by lia. reflexivity.
Qed.

(** Circularity: bit [i] of the rotation is bit [(i + n) mod 32]. *)
Lemma rotr_bits x n i :
  word32 x -> 0 < n < 32 -> 0 <= i < 32 -> Z.testbit (rotr x n) i = Z.testbit x ((i + n) mod 32).
Proof.
  intros Hx Hn Hi. unfold rotr.
  rewrite Z.lor_spec, Z.shiftr_spec, Z.shiftl_spec by lia.
  destruct (Z.ltb_spec (i + n) 32).
  - rewrite (Z.mod_small (i + n) 32) by lia. rewrite (Z.testbit_neg_r _ (i - (32 - n))) by lia.
    apply orb_false_r.
  - rewrite (bits32_high x) by (try exact Hx; lia). rewrite Z.mod_pow2_bits_low by lia.
    cbn [orb]. f_equal. apply Z.mod_unique with 1; lia.
Qed.

Lemma shr_word32 x n : word32 x -> 0 <= n -> word32 (shr x n).
Proof.
  intros Hx Hn. unfold shr, word32 in *. rewrite Z.shiftr_div_pow2 by lia.
  assert (0 < 2 ^ n) by (apply Z.pow_pos_nonneg; lia).
  split; [apply Z.div_pos; lia|].
  apply Z.le_lt_trans with x; [|lia].
  apply Z.div_le_upper_bound; nia.
Qed.

Lemma s0_code_low x : word32 x -> Z.land (s0_code x) mask32 = sigma0 x.
Proof.
  intros Hx. unfold s0_code, sigma0. rewrite !land_lxor_distr.
  change (Z.land (Z.lor (Z.shiftr x 7) (Z.shiftl x (32 - 7))) mask32) with (rightrotate x 7).
  change (Z.land (Z.lor (Z.shiftr x 18) (Z.shiftl x (32 - 18))) mask32) with (rightrotate x 18).
  rewrite !rightrotate_rotr by (auto; lia).
  rewrite land_mask32. fold (shr x 3). rewrite Z.mod_small by (apply shr_word32; auto; lia).
  reflexivity.
Qed.

Lemma s1_code_low x : word32 x -> Z.land (s1_code x) mask32 = sigma1 x.
Proof.
  intros Hx. unfold s1_code, sigma1. rewrite !land_lxor_distr.
  change (Z.land (Z.lor (Z.shiftr x 17) (Z.shiftl x (32 - 17))) mask32) with (rightrotate x 17).
  change (Z.land (Z.lor (Z.shiftr x 19) (Z.shiftl x (32 - 19))) mask32) with (rightrotate x 19).
  rewrite !rightrotate_rotr by (auto; lia).
  rewrite land_mask32. fold (shr x 10). rewrite Z.mod_small by (apply shr_word32; auto; lia).
  reflexivity.
Qed.

(** Only the low 32 bits of the unmasked [s0] and [s1] reach the sum. *)
Lemma schedule_word_spec a x b y :
  word32 x -> word32 y ->
  Z.land (a + s0_code x + b + s1_code y) mask32
  = (a + sigma0 x + b + sigma1 y) mod 2 ^ 32.
Proof.
  intros Hx Hy. rewrite land_mask32.
  rewrite <- (s0_code_low x Hx), <- (s1_code_low y Hy), !land_mask32.
  rewrite (Z.div_mod (s0_code x) (2 ^ 32)) at 1 by lia.
  rewrite (Z.div_mod (s1_code y) (2 ^ 32)) at 1 by lia.
  set (q0 := s0_code x / 2 ^ 32). set (q1 := s1_code y / 2 ^ 32).
  set (r0 := s0_code x mod 2 ^ 32). set (r1 := s1_code y mod 2 ^ 32).
  replace (a + (2 ^ 32 * q0 + r0) + b + (2 ^ 32 * q1 + r1))
    with (a + r0 + b + r1 + (q0 + q1) * 2 ^ 32) by ring.
  apply Z.mod_add. lia.
Qed.

(** Python's [(e & f) ^ (~e & g)] on 32-bit [e] and [g]. *)
Lemma ch_code_Ch e f g : word32 e -> word32 g -> ch_code e f g = Ch e f g.
Proof.
  intros He Hg. unfold ch_code, Ch, not32.
  apply Z.bits_inj'. intros i Hi.
  rewrite !Z.lxor_spec, !Z.land_spec, Z.lnot_spec, Z.lxor_spec by lia.
  rewrite Z.testbit_ones_nonneg by lia.
  destruct (Z.ltb_spec i 32).
  - rewrite xorb_true_r. reflexivity.
  - rewrite (bits32_high g i Hg) by lia. rewrite !andb_false_r. reflexivity.
Qed.

Lemma Ch_word32 e f g : word32 e -> word32 f -> word32 g -> word32 (Ch e f g).
Proof.
  intros He Hf Hg. apply word32_of_bits.
  - unfold Ch. apply Z.lxor_nonneg. split; intros _; apply Z.land_nonneg;
    first [left; apply He | right; apply Hg].
  - intros i Hi. unfold Ch, not32.
    rewrite Z.lxor_spec, !Z.land_spec by lia.
    rewrite (bits32_high f i Hf), (bits32_high g i Hg) by lia.
    rewrite !andb_false_r. reflexivity.
Qed.

(** ** Message schedule *)

Lemma horner_spec l :
  0 <= fold_left (fun acc (bit : bool) => 2 * acc + (if bit then 1 else 0)) l 0
     < 2 ^ Z.of_nat (length l) /\
  be_bits (length l) (fold_left (fun acc (bit : bool) => 2 * acc + (if bit then 1 else 0)) l 0)
  = l.
Proof.
  induction l as [|b l IH] using rev_ind.
  - split; [simpl; lia|reflexivity].
  - rewrite fold_left_app, length_app. cbn [fold_left length].
    set (v := fold_left _ l 0) in *. destruct IH as [Hv Hbits].
    rewrite Nat.add_1_r, Nat2Z.inj_succ, Z.pow_succ_r by lia.
    split; [destruct b; lia|].
    unfold be_bits. rewrite be_digits_snoc by (try destruct b; lia).
    rewrite map_app. unfold be_bits in Hbits.
    replace ((2 * v + (if b then 1 else 0)) / 2) with v by (destruct b; nlia).
    rewrite Hbits. f_equal. destruct b; cbn [map]; f_equal; nlia.
Qed.

Lemma int_base2_spec l :
  l <> [] ->
  exists v, int_base2 l = Some v /\ 0 <= v < 2 ^ Z.of_nat (length l) /\ be_bits (length l) v = l.
Proof.
  intros Hl. destruct l as [|b l']; [congruence|].
  eexists. split; [reflexivity|]. apply horner_spec.
Qed.

Lemma slice_length {A} (s : list A) i n : (i + n <= length s)%nat -> length (slice s i n) = n.
Proof. intros H. unfold slice. rewrite length_firstn, length_skipn. lia. Qed.

Lemma parse_words_spec idx chunk :
  Forall (fun i => (i + 32 <= length chunk)%nat) idx ->
  exists ws, parse_words idx chunk = Some ws /\
    Forall2 (fun i v => word32 v /\ be_bits 32 v = slice chunk i 32) idx ws.
Proof.
  induction 1 as [|i idx Hi _ IH]; [exists []; split; [reflexivity|constructor]|].
  destruct IH as [ws [Hws Hall]].
  assert (Hlen : length (slice chunk i 32) = 32%nat) by (apply slice_length; exact Hi).
  destruct (int_base2_spec (slice chunk i 32)) as [v [Hv [Hrange Hbits]]].
  { intros Hnil. rewrite Hnil in Hlen. discriminate. }
  exists (v :: ws). split.
  - cbn [parse_words]. rewrite Hv, Hws. reflexivity.
  - constructor; [|exact Hall]. rewrite Hlen in Hrange, Hbits. split; [exact Hrange|exact Hbits].
Qed.

Lemma Forall2_nth_iff {A B} (R : A -> B -> Prop) l1 l2 (d1 : A) (d2 : B) :
  Forall2 R l1 l2 -> length l1 = length l2 /\
  forall j, (j < length l1)%nat -> R (nth j l1 d1) (nth j l2 d2).
Proof.
  induction 1 as [|x y l1 l2 Hxy _ [IHlen IH]]; [split; [reflexivity|intros; simpl in *; lia]|].
  split; [simpl; congruence|].
  intros [|j] Hj; [exact Hxy|]. apply IH. simpl in Hj. lia.
Qed.

Lemma nth_prefix {A} (r p : list A) m i d :
  firstn m r = p -> (i < m)%nat -> nth i r d = nth i p d.
Proof. intros <- Hi. rewrite nth_firstn. destruct (Nat.ltb_spec i m); [reflexivity|lia]. Qed.

Lemma extend_words_spec fuel : forall ws,
  (16 <= length ws <= 64)%nat -> (64 - length ws <= fuel)%nat ->
  length (extend_words fuel ws) = 64%nat /\
  firstn (length ws) (extend_words fuel ws) = ws /\
  forall i, (length ws <= i < 64)%nat ->
    nth i (extend_words fuel ws) 0 =
    Z.land (nth (i - 16) (extend_words fuel ws) 0
            + s0_code (nth (i - 15) (extend_words fuel ws) 0)
            + nth (i - 7) (extend_words fuel ws) 0
            + s1_code (nth (i - 2) (extend_words fuel ws) 0)) mask32.
Proof.
  induction fuel as [|fuel IH]; intros ws Hl Hf.
  - cbn [extend_words]. split; [lia|]. split; [apply firstn_all|]. intros; lia.
  - cbn [extend_words]. destruct (Nat.ltb_spec (length ws) 64) as [Hlt|Hge].
    + set (new := Z.land (at_neg ws 16 + s0_code (at_neg ws 15) + at_neg ws 7
                          + s1_code (at_neg ws 2)) mask32).
      assert (Hl' : length (ws ++ [new]) = S (length ws)) by (rewrite length_app; simpl; lia).
      destruct (IH (ws ++ [new])) as [Hlen [Hpre Hrec]]; [lia|lia|].
      set (r := extend_words fuel (ws ++ [new])) in *. rewrite Hl' in Hpre, Hrec.
      assert (Hpre0 : firstn (length ws) r = ws).
      { replace (length ws) with (Init.Nat.min (length ws) (S (length ws))) by lia.
        rewrite <- firstn_firstn, Hpre, firstn_app, firstn_all, Nat.sub_diag.
        apply app_nil_r. }
      split; [exact Hlen|]. split; [exact Hpre0|].
      intros i Hi. destruct (Nat.eq_dec i (length ws)) as [->|Hne]; [|apply Hrec; lia].
      rewrite (nth_prefix r (ws ++ [new]) (S (length ws))) by (auto; lia).
      rewrite nth_middle. unfold new, at_neg.
      rewrite !(nth_prefix r ws (length ws)) by (auto; lia). reflexivity.
    + assert (length ws = 64%nat) by lia.
      split; [assumption|]. split; [apply firstn_all|]. intros; lia.
Qed.

Lemma extend_words_word32 fuel : forall ws,
  Forall word32 ws -> Forall word32 (extend_words fuel ws).
Proof.
  induction fuel as [|fuel IH]; intros ws Hws; cbn [extend_words]; [exact Hws|].
  destruct (Nat.ltb (length ws) 64); [|exact Hws].
  apply IH. apply Forall_app. split; [exact Hws|]. constructor; [apply land_mask32_word|constructor].
Qed.

Lemma create_words_spec chunk :
  length chunk = 512%nat ->
  exists W, create_words chunk = Some W /\ length W = 64%nat /\ Forall word32 W /\
    (forall j, (j < 16)%nat -> be_bits 32 (nth j W 0) = slice chunk (32 * j) 32) /\
    (forall i, (16 <= i < 64)%nat ->
       nth i W 0 = (nth (i - 16) W 0 + sigma0 (nth (i - 15) W 0)
                    + nth (i - 7) W 0 + sigma1 (nth (i - 2) W 0)) mod 2 ^ 32).
Proof.
  intros Hc.
  destruct (parse_words_spec (map (fun j => 32 * j)%nat (seq 0 16)) chunk) as [ws [Hws Hall]].
  { apply Forall_forall. intros i Hin. apply in_map_iff in Hin as [j [<- Hj]].
    apply in_seq in Hj. lia. }
  assert (Hws32 : Forall word32 ws).
  { clear -Hall. induction Hall as [|i v idx ws [Hv _] _ IH]; constructor; assumption. }
  destruct (Forall2_nth_iff _ _ _ 0%nat 0 Hall) as [Hlen Hnth].
  rewrite length_map, length_seq in Hlen.
  unfold create_words. rewrite Hws. eexists. split; [reflexivity|].
  destruct (extend_words_spec 64 ws) as [L [P R]]; [lia|lia|].
  pose proof (extend_words_word32 64 ws Hws32) as HW.
  set (W := extend_words 64 ws) in *.
  assert (HWn : forall i, (i < 64)%nat -> word32 (nth i W 0)).
  { intros i Hi. apply Forall_nth; [exact HW|lia]. }
  split; [exact L|]. split; [exact HW|]. split.
  - intros j Hj. rewrite (nth_prefix W ws (length ws)) by (auto; lia).
    destruct (Hnth j) as [_ Hb]; [rewrite length_map, length_seq; lia|].
    rewrite Hb. f_equal.
    rewrite (nth_indep _ _ ((fun j : nat => (32 * j)%nat) 0%nat)) by (rewrite length_map, length_seq; lia).
    rewrite map_nth, seq_nth by lia. reflexivity.
  - intros i Hi. rewrite R by lia. apply schedule_word_spec; apply HWn; lia.
Qed.

(** ** Compression *)

Ltac forall_cons_inv :=
  repeat match goal with
         | H : Forall _ (_ :: _) |- _ => apply Forall_cons_iff in H; destruct H
         | H : Forall _ [] |- _ => clear H
         end.

Lemma round_eq W r i : regs_ok r -> round W r i = round_spec W r i.
Proof.
  destruct r as [a b c d e f g h]. unfold regs_ok, regs_list. intros Hr. forall_cons_inv.
  unfold round, round_spec. cbv beta iota zeta.
  rewrite !rightrotate_rotr by (auto; lia).
  rewrite ch_code_Ch by assumption. rewrite !land_mask32. reflexivity.
Qed.

Lemma round_spec_ok W r i : regs_ok r -> regs_ok (round_spec W r i).
Proof.
  destruct r as [a b c d e f g h]. unfold regs_ok, regs_list. intros Hr. forall_cons_inv.
  cbn [round_spec regs_list].
  repeat (apply Forall_cons; [first [assumption | apply mod32_word] |]). apply Forall_nil.
Qed.

Lemma rounds_eq W l : forall r,
  regs_ok r -> fold_left (round W) l r = fold_left (round_spec W) l r.
Proof.
  induction l as [|i l IH]; intros r Hr; [reflexivity|].
  cbn [fold_left]. rewrite round_eq by exact Hr. apply IH. apply round_spec_ok. exact Hr.
Qed.

Lemma compress_spec_ok H W : length (compress_spec H W) = 8%nat /\ Forall word32 (compress_spec H W).
Proof.
  unfold compress_spec. rewrite length_map, length_seq. split; [reflexivity|].
  apply Forall_map, Forall_forall. intros. apply mod32_word.
Qed.

Lemma compress_eq H chunk W :
  length H = 8%nat -> Forall word32 H -> create_words chunk = Some W ->
  compress H chunk = Some (compress_spec H W).
Proof.
  intros Hlen HH HW.
  do 8 (destruct H as [|? H]; [cbn in Hlen; lia|]).
  destruct H; [|cbn in Hlen; lia].
  unfold compress, compress_spec. rewrite HW. cbn [nth].
  rewrite rounds_eq by (unfold regs_ok, regs_list; exact HH).
  destruct (fold_left (round_spec W) (seq 0 64) _) as [a b c d e f g h].
  cbn. rewrite !land_mask32. reflexivity.
Qed.

Lemma process_chunks_spec cs Ws :
  Forall2 (fun c W => create_words c = Some W) cs Ws ->
  forall H, length H = 8%nat -> Forall word32 H ->
  process_chunks H cs = Some (fold_left compress_spec Ws H).
Proof.
  induction 1 as [|c W cs Ws HcW _ IH]; intros H Hlen HH; [reflexivity|].
  unfold process_chunks. cbn [fold_left]. rewrite (compress_eq H c W Hlen HH HcW).
  apply IH; apply compress_spec_ok.
Qed.

Lemma fold_compress_spec_ok Ws : forall H,
  length H = 8%nat -> Forall word32 H ->
  length (fold_left compress_spec Ws H) = 8%nat /\ Forall word32 (fold_left compress_spec Ws H).
Proof.
  induction Ws as [|W Ws IH]; intros H Hlen HH; [split; assumption|].
  cbn [fold_left]. apply IH; apply compress_spec_ok.
Qed.

(** ** Chunks and output *)

Lemma chunks_aux_full fuel : forall s,
  (length s <= fuel)%nat -> (length s mod 512 = 0)%nat ->
  Forall (fun c => length c = 512%nat) (chunks_aux fuel s).
Proof.
  induction fuel as [|fuel IH]; intros s Hf Hm; [constructor|].
  cbn [chunks_aux]. destruct s as [|x s']; [constructor|].
  set (s := x :: s') in *.
  assert (Hge : (512 <= length s)%nat) by (subst s; cbn [length] in *; nlia).
  constructor.
  - rewrite length_firstn. lia.
  - apply IH; rewrite length_skipn; nlia.
Qed.

Lemma chunks_words cs :
  Forall (fun c => length c = 512%nat) cs ->
  exists Ws, Forall2 (fun c W => create_words c = Some W) cs Ws.
Proof.
  induction 1 as [|c cs Hc _ [Ws IH]]; [exists []; constructor|].
  destruct (create_words_spec c Hc) as [W [HW _]].
  exists (W :: Ws). constructor; assumption.
Qed.

Lemma H_init_ok : length H_init = 8%nat /\ Forall word32 H_init.
Proof. split; [reflexivity|]. unfold H_init, word32. repeat constructor; lia. Qed.

Lemma hex_char_lower d : 0 <= d < 16 -> is_lower_hex (hex_char d) = true.
Proof.
  intros Hd.
  assert (d = 0 \/ d = 1 \/ d = 2 \/ d = 3 \/ d = 4 \/ d = 5 \/ d = 6 \/ d = 7 \/
          d = 8 \/ d = 9 \/ d = 10 \/ d = 11 \/ d = 12 \/ d = 13 \/ d = 14 \/ d = 15)
    as Hcases by lia.
  repeat destruct Hcases as [-> | Hcases]; subst; reflexivity.
Qed.

Lemma string_of_list_ascii_length l : String.length (string_of_list_ascii l) = length l.
Proof. induction l as [|ch l IH]; cbn; congruence. Qed.

Lemma hexdigest_spec Hf :
  Forall word32 Hf -> hexdigest Hf = string_of_list_ascii (concat (map hex8 Hf)).
Proof.
  intros HH. unfold hexdigest. f_equal. f_equal. apply map_ext_in.
  intros v Hv. rewrite Forall_forall in HH. specialize (HH v Hv).
  unfold hex8. apply format_hex_be; [lia|]. exact HH.
Qed.

Lemma hex8_length_concat Hf : length (concat (map hex8 Hf)) = (8 * length Hf)%nat.
Proof.
  induction Hf as [|v Hf IH]; [reflexivity|].
  cbn [map concat]. rewrite length_app, IH. unfold hex8. rewrite length_map, be_digits_length.
  cbn [length]. lia.
Qed.

Lemma hex8_lower Hf : Forall (fun ch => is_lower_hex ch = true) (concat (map hex8 Hf)).
Proof.
  apply Forall_forall. intros ch Hin. apply in_concat in Hin as [l [Hl Hch]].
  apply in_map_iff in Hl as [v [<- _]]. unfold hex8 in Hch.
  apply in_map_iff in Hch as [d [<- Hd]].
  apply hex_char_lower. pose proof (be_digits_range 16 ltac:(lia) 8 v) as Hr.
  rewrite Forall_forall in Hr. apply Hr. exact Hd.
Qed.

(** The whole pipeline on a message whose bit string fits the 64-bit
    length field. *)
Lemma sha256_simple_spec msg :
  Z.of_nat (length (to_binary msg)) < 2 ^ 64 ->
  exists Ws Hf,
    Forall2 (fun c W => create_words c = Some W) (create_chunks (pad_message (to_binary msg))) Ws /\
    Hf = fold_left compress_spec Ws H_init /\
    process_chunks H_init (create_chunks (pad_message (to_binary msg))) = Some Hf /\
    length Hf = 8%nat /\ Forall word32 Hf /\
    sha256_simple msg = Some (string_of_list_ascii (concat (map hex8 Hf))).
Proof.
  intros Hb.
  destruct (pad_message_length_mod (to_binary msg) Hb) as [Hm _].
  assert (Hfull := chunks_aux_full _ _ (le_n _) Hm).
  destruct (chunks_words _ Hfull) as [Ws HWs].
  destruct H_init_ok as [Hl0 HH0].
  pose proof (process_chunks_spec _ _ HWs H_init Hl0 HH0) as Hp.
  destruct (fold_compress_spec_ok Ws H_init Hl0 HH0) as [Hl HH].
  exists Ws, (fold_left compress_spec Ws H_init).
  split; [exact HWs|]. split; [reflexivity|]. split; [exact Hp|].
  split; [exact Hl|]. split; [exact HH|].
  unfold sha256_simple, create_chunks. cbv zeta. rewrite Hp. rewrite hexdigest_spec by exact HH. reflexivity.
Qed.

(** * Claims *)

(** C1: for the input "abc" the digest is the NIST test vector
    ba7816bf...f20015ad. *)
Theorem sha256_abc :
  sha256_simple (ascii_msg "abc")
  = Some "ba7816bf8f01cfea414140de5dae2223b00361a396177a9cb410ff61f20015ad"%string.
Proof. vm_compute. reflexivity. Qed.

(** C2: for the empty input the digest is defined (no exception) and is
    the NIST vector e3b0c442...7852b855. *)
Theorem sha256_empty :
  sha256_simple []
  = Some "e3b0c44298fc1c149afbf4c8996fb92427ae41e4649b934ca495991b7852b855"%string.
Proof. vm_compute. reflexivity. Qed.

(** C3: for every 512-bit chunk, [create_words] returns 64 words; the
    first 16 are the chunk's 32-bit slices read as unsigned big-endian
    integers, and [W[i] = (W[i-16] + sigma0 W[i-15] + W[i-7] + sigma1 W[i-2])
    mod 2^32] for [16 <= i < 64], with [sigma0], [sigma1] built from the
    32-bit rotation [rotr] and the logical shift [shr]. *)
Theorem create_words_schedule chunk :
  length chunk = 512%nat ->
  exists W, create_words chunk = Some W /\ length W = 64%nat /\
    (forall j, (j < 16)%nat ->
       word32 (nth j W 0) /\ be_bits 32 (nth j W 0) = slice chunk (32 * j) 32) /\
    (forall i, (16 <= i < 64)%nat ->
       nth i W 0 = (nth (i - 16) W 0 + sigma0 (nth (i - 15) W 0)
                    + nth (i - 7) W 0 + sigma1 (nth (i - 2) W 0)) mod 2 ^ 32).
Proof.
  intros Hc. destruct (create_words_spec chunk Hc) as [W [HW [Hl [H32 [Hfirst Hrec]]]]].
  exists W. split; [exact HW|]. split; [exact Hl|]. split; [|exact Hrec].
  intros j Hj. split; [apply Forall_nth; [exact H32|lia]|]. apply Hfirst. exact Hj.
Qed.

Lemma create_words_schedule_witness :
  length (pad_message (to_binary (ascii_msg "abc"))) = 512%nat /\
  exists W, create_words (pad_message (to_binary (ascii_msg "abc"))) = Some W /\
    length W = 64%nat /\
    (forall j, (j < 16)%nat ->
       word32 (nth j W 0) /\
       be_bits 32 (nth j W 0) = slice (pad_message (to_binary (ascii_msg "abc"))) (32 * j) 32) /\
    (forall i, (16 <= i < 64)%nat ->
       nth i W 0 = (nth (i - 16) W 0 + sigma0 (nth (i - 15) W 0)
                    + nth (i - 7) W 0 + sigma1 (nth (i - 2) W 0)) mod 2 ^ 32).
Proof.
  split; [vm_compute; reflexivity|].
  apply create_words_schedule. vm_compute. reflexivity.
Defined.

(** C4: each chunk is compressed from the current 8-word state by the 64
    rounds of [round_spec] (register shift [h<-g, g<-f, f<-e,
    e<-(d+temp1) mod 2^32, d<-c, c<-b, b<-a, a<-(temp1+temp2) mod 2^32]),
    then [H[k] = (H[k] + {a..h}[k]) mod 2^32]; the chunks are processed
    once each, in order, the state produced by one being the input of the
    next. *)
Theorem process_chunks_in_order H cs Ws :
  length H = 8%nat -> Forall word32 H ->
  Forall2 (fun c W => create_words c = Some W) cs Ws ->
  process_chunks H cs = Some (fold_left compress_spec Ws H).
Proof. intros Hl HH HWs. exact (process_chunks_spec cs Ws HWs H Hl HH). Qed.

Lemma process_chunks_in_order_witness :
  length H_init = 8%nat /\ Forall word32 H_init /\
  Forall2 (fun c W => create_words c = Some W)
    [repeat false 512; repeat true 512]
    [extend_words 64 (repeat 0 16); extend_words 64 (repeat mask32 16)] /\
  process_chunks H_init [repeat false 512; repeat true 512]
  = Some (fold_left compress_spec
            [extend_words 64 (repeat 0 16); extend_words 64 (repeat mask32 16)] H_init).
Proof.
  assert (Hl : length H_init = 8%nat) by reflexivity.
  assert (HH : Forall word32 H_init) by (unfold H_init, word32; repeat constructor; lia).
  assert (HF : Forall2 (fun c W => create_words c = Some W)
                 [repeat false 512; repeat true 512]
                 [extend_words 64 (repeat 0 16); extend_words 64 (repeat mask32 16)])
    by (repeat constructor; vm_compute; reflexivity).
  split; [exact Hl|]. split; [exact HH|]. split; [exact HF|].
  apply (process_chunks_in_order H_init _ _ Hl HH HF).
Defined.

(** C5: for a message of [L] bytes (code points below 256, [8L] fitting
    the 64-bit length field), the padded string is the message bits
    (most significant bit first per byte), one [1] bit, the least number
    [k] of [0] bits bringing the length to 448 modulo 512, then [8L] as a
    64-bit big-endian integer; its length is a multiple of 512 and at
    least [8L + 65]. *)
Theorem pad_message_layout msg :
  Forall (fun c => (c < 256)%N) msg ->
  Z.of_nat (8 * length msg) < 2 ^ 64 ->
  exists k,
    pad_message (to_binary msg) =
      concat (map (fun c => be_bits 8 (Z.of_N c)) msg) ++ [true] ++ repeat false k
        ++ be_bits 64 (Z.of_nat (8 * length msg)) /\
    ((8 * length msg + 1 + k) mod 512 = 448)%nat /\
    (forall k', (k' < k)%nat -> ((8 * length msg + 1 + k') mod 512 <> 448)%nat) /\
    (length (pad_message (to_binary msg)) mod 512 = 0)%nat /\
    (8 * length msg + 65 <= length (pad_message (to_binary msg)))%nat.
Proof.
  intros Hbytes Hfit.
  assert (Hlen : length (to_binary msg) = (8 * length msg)%nat)
    by (rewrite to_binary_bytes by exact Hbytes; apply concat_bytes_length).
  assert (Hb : Z.of_nat (length (to_binary msg)) < 2 ^ 64) by (rewrite Hlen; exact Hfit).
  destruct (pad_message_length_mod _ Hb) as [Hm Hge].
  exists ((512 - (8 * length msg + 65) mod 512) mod 512)%nat.
  split; [|split; [nlia|split; [intros k' Hk'; nlia|split; [exact Hm|lia]]]].
  rewrite pad_message_shape by exact Hb. rewrite Hlen.
  rewrite to_binary_bytes by exact Hbytes. reflexivity.
Qed.

Lemma pad_message_layout_witness :
  Forall (fun c => (c < 256)%N) (ascii_msg "abc") /\
  Z.of_nat (8 * length (ascii_msg "abc")) < 2 ^ 64 /\
  exists k,
    pad_message (to_binary (ascii_msg "abc")) =
      concat (map (fun c => be_bits 8 (Z.of_N c)) (ascii_msg "abc")) ++ [true] ++ repeat false k
        ++ be_bits 64 (Z.of_nat (8 * length (ascii_msg "abc"))) /\
    ((8 * length (ascii_msg "abc") + 1 + k) mod 512 = 448)%nat /\
    (forall k', (k' < k)%nat -> ((8 * length (ascii_msg "abc") + 1 + k') mod 512 <> 448)%nat) /\
    (length (pad_message (to_binary (ascii_msg "abc"))) mod 512 = 0)%nat /\
    (8 * length (ascii_msg "abc") + 65 <= length (pad_message (to_binary (ascii_msg "abc"))))%nat.
Proof.
  assert (H1 : Forall (fun c => (c < 256)%N) (ascii_msg "abc"))
    by (repeat constructor; vm_compute; reflexivity).
  assert (H2 : Z.of_nat (8 * length (ascii_msg "abc")) < 2 ^ 64) by (vm_compute; reflexivity).
  split; [exact H1|]. split; [exact H2|].
  exact (pad_message_layout (ascii_msg "abc") H1 H2).
Defined.

(** C6: for a message of [L] bytes, the padded bit length is the smallest
    multiple of 512 that is at least [8L + 65]. *)
Theorem pad_message_length_smallest msg :
  Forall (fun c => (c < 256)%N) msg ->
  Z.of_nat (8 * length msg) < 2 ^ 64 ->
  (length (pad_message (to_binary msg)) mod 512 = 0)%nat /\
  (8 * length msg + 65 <= length (pad_message (to_binary msg)))%nat /\
  (forall m, (m mod 512 = 0)%nat -> (8 * length msg + 65 <= m)%nat ->
     (length (pad_message (to_binary msg)) <= m)%nat).
Proof.
  intros Hbytes Hfit.
  assert (Hlen : length (to_binary msg) = (8 * length msg)%nat)
    by (rewrite to_binary_bytes by exact Hbytes; apply concat_bytes_length).
  assert (Hb : Z.of_nat (length (to_binary msg)) < 2 ^ 64) by (rewrite Hlen; exact Hfit).
  rewrite (pad_message_length _ Hb), Hlen.
  split; [nlia|]. split; [lia|]. intros m Hm Hge. nlia.
Qed.

Lemma pad_message_length_smallest_witness :
  length (pad_message (to_binary (ascii_msg "abc"))) = 512%nat /\
  (length (pad_message (to_binary (ascii_msg "abc"))) mod 512 = 0)%nat /\
  (8 * length (ascii_msg "abc") + 65 <= length (pad_message (to_binary (ascii_msg "abc"))))%nat /\
  (forall m, (m mod 512 = 0)%nat -> (8 * length (ascii_msg "abc") + 65 <= m)%nat ->
     (length (pad_message (to_binary (ascii_msg "abc"))) <= m)%nat).
Proof.
  split; [vm_compute; reflexivity|].
  apply pad_message_length_smallest.
  - repeat constructor; vm_compute; reflexivity.
  - vm_compute. reflexivity.
Defined.

(** C7: every word of the schedule of a 512-bit chunk is a 32-bit word
    ([0 <= w < 2^32]). *)
Theorem create_words_in_range chunk :
  length chunk = 512%nat ->
  exists W, create_words chunk = Some W /\ length W = 64%nat /\ Forall word32 W.
Proof.
  intros Hc. destruct (create_words_spec chunk Hc) as [W [HW [Hl [H32 _]]]].
  exists W. auto.
Qed.

Lemma create_words_in_range_witness :
  length (repeat true 512) = 512%nat /\
  exists W, create_words (repeat true 512) = Some W /\ length W = 64%nat /\ Forall word32 W.
Proof.
  split; [reflexivity|]. apply create_words_in_range. reflexivity.
Defined.

(** C8: for every input whose bit string fits the 64-bit length field,
    the digest is a string of 64 lowercase hex digits: the final 8-word
    state, each word as 8 hex digits, most significant first. *)
Theorem sha256_hex_output msg :
  Z.of_nat (length (to_binary msg)) < 2 ^ 64 ->
  exists s Hf,
    sha256_simple msg = Some s /\
    String.length s = 64%nat /\
    Forall (fun ch => is_lower_hex ch = true) (list_ascii_of_string s) /\
    process_chunks H_init (create_chunks (pad_message (to_binary msg))) = Some Hf /\
    length Hf = 8%nat /\ Forall word32 Hf /\
    s = string_of_list_ascii (concat (map hex8 Hf)).
Proof.
  intros Hb. destruct (sha256_simple_spec msg Hb) as [Ws [Hf [_ [_ [Hp [Hl [HH Hs]]]]]]].
  exists (string_of_list_ascii (concat (map hex8 Hf))), Hf.
  split; [exact Hs|]. split.
  - rewrite string_of_list_ascii_length, hex8_length_concat, Hl. reflexivity.
  - split; [rewrite list_ascii_of_string_of_list_ascii; apply hex8_lower|].
    auto.
Qed.

Lemma sha256_hex_output_witness :
  Z.of_nat (length (to_binary (ascii_msg "abc"))) < 2 ^ 64 /\
  exists s Hf,
    sha256_simple (ascii_msg "abc") = Some s /\
    String.length s = 64%nat /\
    Forall (fun ch => is_lower_hex ch = true) (list_ascii_of_string s) /\
    process_chunks H_init (create_chunks (pad_message (to_binary (ascii_msg "abc")))) = Some Hf /\
    length Hf = 8%nat /\ Forall word32 Hf /\
    s = string_of_list_ascii (concat (map hex8 Hf)).
Proof.
  assert (Hb : Z.of_nat (length (to_binary (ascii_msg "abc"))) < 2 ^ 64) by (vm_compute; reflexivity).
  split; [exact Hb|]. exact (sha256_hex_output _ Hb).
Defined.

(** C9: on 32-bit [e], [f], [g], Python's [(e & f) ^ (~e & g)] (with
    [~e = -e-1] negative) is a 32-bit word equal to the FIPS 180-4 [Ch]
    with [NOT] the 32-bit complement. *)
Theorem ch_code_fips e f g :
  word32 e -> word32 f -> word32 g ->
  word32 (ch_code e f g) /\ ch_code e f g = Ch e f g.
Proof.
  intros He Hf Hg. rewrite ch_code_Ch by assumption.
  split; [apply Ch_word32; assumption|reflexivity].
Qed.

Lemma ch_code_fips_witness :
  word32 0x9b05688c /\ word32 0x510e527f /\ word32 0x1f83d9ab /\
  word32 (ch_code 0x510e527f 0x9b05688c 0x1f83d9ab) /\
  ch_code 0x510e527f 0x9b05688c 0x1f83d9ab = Ch 0x510e527f 0x9b05688c 0x1f83d9ab.
Proof.
  assert (H1 : word32 0x510e527f) by (unfold word32; lia).
  assert (H2 : word32 0x9b05688c) by (unfold word32; lia).
  assert (H3 : word32 0x1f83d9ab) by (unfold word32; lia).
  split; [exact H2|]. split; [exact H1|]. split; [exact H3|].
  exact (ch_code_fips _ _ _ H1 H2 H3).
Defined.

(** ** A code point above 255 *)

Lemma sha256_256_vs_bytes :
  forallb (fun n => match sha256_simple [256%N], sha256_simple [N.of_nat n] with
                    | Some s1, Some s2 => negb (String.eqb s1 s2)
                    | _, _ => false
                    end) (seq 0 256) = true.
Proof. vm_compute. reflexivity. Qed.

(** C10: a string of code points [<= 255] is turned into exactly 8 bits
    per character, its code point most significant bit first, so the
    digest is that of the [L]-byte message; the character U+0100 (code
    point 256) is turned into 9 bits, and the digest of the one-character
    string "Ā" differs from the digest of every one-byte message. *)
Theorem to_binary_code_points :
  (forall msg, Forall (fun c => (c <= 255)%N) msg ->
     to_binary msg = concat (map (fun c => be_bits 8 (Z.of_N c)) msg) /\
     length (to_binary msg) = (8 * length msg)%nat) /\
  (exists c, (256 <= c)%N /\ (8 < length (to_binary [c]))%nat /\
     forall b, (b <= 255)%N -> sha256_simple [c] <> sha256_simple [b]).
Proof.
  split.
  - intros msg Hmsg.
    assert (Hbytes : Forall (fun c => (c < 256)%N) msg)
      by (eapply Forall_impl; [|exact Hmsg]; intros c Hc; simpl in Hc; lia).
    rewrite to_binary_bytes by exact Hbytes. split; [reflexivity|apply concat_bytes_length].
  - exists 256%N. split; [lia|]. split; [vm_compute; lia|].
    intros b Hb Heq.
    pose proof (proj1 (forallb_forall _ _) sha256_256_vs_bytes (N.to_nat b)) as Hall.
    assert (Hin : In (N.to_nat b) (seq 0 256)) by (apply in_seq; lia).
    specialize (Hall Hin). cbv beta in Hall.
    rewrite N2Nat.id, <- Heq in Hall.
    destruct (sha256_simple [256%N]) as [s|].
    + rewrite String.eqb_refl in Hall. discriminate Hall.
    + discriminate Hall.
Qed.

Lemma to_binary_code_points_witness :
  Forall (fun c => (c <= 255)%N) (ascii_msg "abc") /\
  to_binary (ascii_msg "abc") = concat (map (fun c => be_bits 8 (Z.of_N c)) (ascii_msg "abc")) /\
  length (to_binary (ascii_msg "abc")) = (8 * length (ascii_msg "abc"))%nat.
Proof.
  assert (H : Forall (fun c => (c <= 255)%N) (ascii_msg "abc"))
    by (repeat constructor; vm_compute; discriminate).
  split; [exact H|]. exact (proj1 to_binary_code_points _ H).
Defined.

(** ** Extra helpers *)

Lemma chunks_aux_slices fuel : forall s,
  (length s <= fuel)%nat ->
  concat (chunks_aux fuel s) = s /\
  length (chunks_aux fuel s) = ((length s + 511) / 512)%nat /\
  (forall j, (j < length (chunks_aux fuel s))%nat ->
     nth j (chunks_aux fuel s) [] = slice s (512 * j) 512).
Proof.
  induction fuel as [|fuel IH]; intros s Hf.
  - destruct s; [|cbn [length] in Hf; lia]. split; [reflexivity|]. split; [reflexivity|].
    intros j Hj. cbn in Hj. lia.
  - cbn [chunks_aux]. destruct s as [|x s'].
    + split; [reflexivity|]. split; [reflexivity|]. intros j Hj. cbn in Hj. lia.
    + set (s := x :: s') in *.
      assert (Hs : (1 <= length s)%nat) by (subst s; cbn [length]; lia).
      destruct (IH (skipn 512 s)) as [Hc [Hl Hn]]; [rewrite length_skipn; lia|].
      split; [cbn [concat]; rewrite Hc; apply firstn_skipn|].
      split; [cbn [length]; rewrite Hl, length_skipn; nlia|].
      intros [|j] Hj; [reflexivity|].
      cbn [nth]. rewrite Hn by (cbn [length] in Hj; lia).
      unfold slice. rewrite skipn_skipn. f_equal. f_equal. lia.
Qed.

Lemma horner_zeros k l :
  fold_left (fun acc (bit : bool) => 2 * acc + (if bit then 1 else 0)) (repeat false k ++ l) 0
  = fold_left (fun acc (bit : bool) => 2 * acc + (if bit then 1 else 0)) l 0.
Proof. induction k as [|k IH]; [reflexivity|]. cbn [repeat app fold_left]. exact IH. Qed.

Lemma horner_be_bits w : forall n,
  0 <= n < 2 ^ Z.of_nat w ->
  fold_left (fun acc (bit : bool) => 2 * acc + (if bit then 1 else 0)) (be_bits w n) 0 = n.
Proof.
  induction w as [|w IH]; intros n Hn.
  - cbn in Hn. cbn. lia.
  - unfold be_bits. rewrite be_digits_snoc by lia. rewrite map_app, fold_left_app.
    fold (be_bits w (n / 2)). rewrite IH.
    + cbn [map fold_left]. destruct (Z.eqb_spec (n mod 2) 1); nlia.
    + rewrite Nat2Z.inj_succ, Z.pow_succ_r in Hn by lia.
      split; [apply Z.div_pos|apply Z.div_lt_upper_bound]; lia.
Qed.

Lemma format_bin_horner w n :
  0 <= n ->
  fold_left (fun acc (bit : bool) => 2 * acc + (if bit then 1 else 0)) (format_bin w n) 0 = n.
Proof.
  intros Hn. set (W := S (Z.to_nat (Z.log2 n) + w)).
  assert (HW : 0 <= n < 2 ^ Z.of_nat W).
  { split; [lia|]. destruct (Z.eqb_spec n 0) as [->|Hn0]; [apply Z.pow_pos_nonneg; lia|].
    eapply Z.lt_le_trans; [apply (log2_digits_bound 2); lia|].
    apply Z.pow_le_mono_r; lia. }
  destruct (py_digits_pad 2 ltac:(lia) W n ltac:(lia) HW) as [_ Hpad].
  pose proof (horner_be_bits W n HW) as Hh. unfold be_bits in Hh.
  rewrite Hpad, map_app, map_repeat, horner_zeros in Hh.
  unfold format_bin. rewrite horner_zeros. exact Hh.
Qed.

Lemma format_bin_length w n : (w <= length (format_bin w n))%nat.
Proof. unfold format_bin. rewrite length_app, repeat_length, length_map. lia. Qed.

Lemma be_bits_inj w a b :
  0 <= a < 2 ^ Z.of_nat w -> 0 <= b < 2 ^ Z.of_nat w -> be_bits w a = be_bits w b -> a = b.
Proof.
  intros Ha Hb Heq. rewrite <- (horner_be_bits w a Ha), <- (horner_be_bits w b Hb).
  now rewrite Heq.
Qed.

Lemma app_same_length {A} (l1 l2 r1 r2 : list A) :
  length l1 = length l2 -> l1 ++ r1 = l2 ++ r2 -> l1 = l2 /\ r1 = r2.
Proof.
  revert l2. induction l1 as [|x l1 IH]; intros [|y l2] Hl Heq; cbn in *; try lia.
  - split; [reflexivity|exact Heq].
  - injection Heq as -> Heq. destruct (IH l2 ltac:(lia) Heq) as [-> ->]. split; reflexivity.
Qed.

Lemma int_base2_none l : int_base2 l = None <-> l = [].
Proof. destruct l; cbn; split; congruence. Qed.

Lemma slice_nil_iff {A} (s : list A) i n :
  (0 < n)%nat -> slice s i n = [] <-> (length s <= i)%nat.
Proof.
  intros Hn. rewrite <- length_zero_iff_nil. unfold slice.
  rewrite length_firstn, length_skipn. lia.
Qed.

Lemma parse_words_none idx chunk :
  parse_words idx chunk = None <-> Exists (fun i => (length chunk <= i)%nat) idx.
Proof.
  induction idx as [|i idx IH]; cbn [parse_words].
  - split; [discriminate|intros H; inversion H].
  - rewrite Exists_cons, <- IH, <- (slice_nil_iff chunk i 32), <- int_base2_none by lia.
    destruct (int_base2 (slice chunk i 32)), (parse_words idx chunk); split;
      intros H; try discriminate; try reflexivity; intuition discriminate.
Qed.

Lemma process_chunks_from_none cs :
  fold_left (fun acc chunk => match acc with Some H => compress H chunk | None => None end) cs None
  = None.
Proof. induction cs as [|c cs IH]; [reflexivity|exact IH]. Qed.



(** * Further properties of the code *)

(** [create_chunks] cuts any bit string into consecutive 512-bit slices:
    their concatenation is the string, there are [ceil(len/512)] of them,
    and chunk [j] is [s[512j : 512j+512]]. *)
Theorem create_chunks_slices s :
  concat (create_chunks s) = s /\
  length (create_chunks s) = ((length s + 511) / 512)%nat /\
  (forall j, (j < length (create_chunks s))%nat ->
     nth j (create_chunks s) [] = slice s (512 * j) 512).
Proof. apply chunks_aux_slices. lia. Qed.

(** [int(f"{n:0<w>b}", 2) = n] for every nonnegative [n] and width
    [w >= 1], also when [n] needs more than [w] digits. *)
Theorem int_base2_format_bin w n :
  (1 <= w)%nat -> 0 <= n -> int_base2 (format_bin w n) = Some n.
Proof.
  intros Hw Hn. pose proof (format_bin_length w n) as Hl.
  pose proof (format_bin_horner w n Hn) as Hh.
  destruct (format_bin w n) as [|b l] eqn:E; [cbn in Hl; lia|].
  cbn [int_base2]. now rewrite Hh.
Qed.

Lemma int_base2_format_bin_witness :
  (1 <= 8)%nat /\ 0 <= 256 /\ int_base2 (format_bin 8 256) = Some 256.
Proof.
  split; [lia|]. split; [lia|]. apply int_base2_format_bin; lia.
Defined.

(** [to_binary] is injective on strings of code points below 256. *)
Theorem to_binary_bytes_injective m1 m2 :
  Forall (fun c => (c < 256)%N) m1 -> Forall (fun c => (c < 256)%N) m2 ->
  to_binary m1 = to_binary m2 -> m1 = m2.
Proof.
  intros H1 H2. rewrite (to_binary_bytes m1 H1), (to_binary_bytes m2 H2).
  revert m2 H2. induction H1 as [|c m1 Hc _ IH]; intros m2 H2 Heq.
  - destruct H2 as [|d m2 Hd _]; [reflexivity|].
    cbn [map concat] in Heq. apply (f_equal (@length bool)) in Heq.
    rewrite length_app, be_bits_length in Heq. cbn in Heq. lia.
  - destruct H2 as [|d m2 Hd H2].
    + cbn [map concat] in Heq. apply (f_equal (@length bool)) in Heq.
      rewrite length_app, be_bits_length in Heq. cbn in Heq. lia.
    + cbn [map concat] in Heq.
      destruct (app_same_length _ _ _ _ ltac:(rewrite !be_bits_length; reflexivity) Heq)
        as [Hb Hr].
      apply be_bits_inj in Hb; [|cbn; lia|cbn; lia].
      f_equal; [lia|]. apply IH; assumption.
Qed.

Lemma to_binary_bytes_injective_witness :
  Forall (fun c => (c < 256)%N) (ascii_msg "abc") /\
  Forall (fun c => (c < 256)%N) (ascii_msg "abc") /\
  to_binary (ascii_msg "abc") = to_binary (ascii_msg "abc") /\
  ascii_msg "abc" = ascii_msg "abc".
Proof.
  assert (H : Forall (fun c => (c < 256)%N) (ascii_msg "abc"))
    by (repeat constructor; vm_compute; reflexivity).
  split; [exact H|]. split; [exact H|]. split; [reflexivity|].
  exact (to_binary_bytes_injective _ _ H H eq_refl).
Defined.

(** With code points above 255 [to_binary] is no longer injective: eight
    copies of U+0100 and the nine bytes 80 40 20 10 08 04 02 01 00 have
    the same bit string, hence the same digest. *)
Theorem sha256_code_point_collision :
  repeat 256%N 8 <> [128; 64; 32; 16; 8; 4; 2; 1; 0]%N /\
  to_binary (repeat 256%N 8) = to_binary [128; 64; 32; 16; 8; 4; 2; 1; 0]%N /\
  exists s, sha256_simple (repeat 256%N 8) = Some s /\
            sha256_simple [128; 64; 32; 16; 8; 4; 2; 1; 0]%N = Some s.
Proof.
  split; [discriminate|]. split; [vm_compute; reflexivity|].
  eexists. split; vm_compute; reflexivity.
Qed.

(** [create_words] raises ([int('', 2)]) exactly on chunks of at most
    480 bits; on longer chunks every slice is nonempty. *)
Theorem create_words_none_iff chunk :
  create_words chunk = None <-> (length chunk <= 480)%nat.
Proof.
  unfold create_words.
  assert (Hp : parse_words (map (fun j => 32 * j)%nat (seq 0 16)) chunk = None
               <-> (length chunk <= 480)%nat).
  { rewrite parse_words_none, Exists_exists. split.
    - intros [i [Hi Hle]]. apply in_map_iff in Hi as [j [<- Hj]].
      apply in_seq in Hj. lia.
    - intros Hle. exists 480%nat. split; [|exact Hle].
      apply in_map_iff. exists 15%nat. split; [reflexivity|]. apply in_seq. lia. }
  rewrite <- Hp. destruct (parse_words _ chunk); split; congruence.
Qed.

(** [pad_message] on any bit string (not only whole bytes) whose length
    [n] fits 64 bits: [n] bits, a [1], the least [k] zeros with
    [n + 1 + k = 448 (mod 512)], then [n] as 64 bits big-endian. *)
Theorem pad_message_any_bits bits :
  Z.of_nat (length bits) < 2 ^ 64 ->
  exists k,
    pad_message bits = bits ++ [true] ++ repeat false k ++ be_bits 64 (Z.of_nat (length bits)) /\
    ((length bits + 1 + k) mod 512 = 448)%nat /\
    (forall k', (k' < k)%nat -> ((length bits + 1 + k') mod 512 <> 448)%nat) /\
    (length (pad_message bits) mod 512 = 0)%nat.
Proof.
  intros Hb. exists ((512 - (length bits + 65) mod 512) mod 512)%nat.
  split; [apply pad_message_shape; exact Hb|].
  split; [nlia|]. split; [intros k' Hk'; nlia|].
  apply pad_message_length_mod. exact Hb.
Qed.

Lemma pad_message_any_bits_witness :
  Z.of_nat (length (to_binary [256%N])) < 2 ^ 64 /\
  exists k,
    pad_message (to_binary [256%N]) = to_binary [256%N] ++ [true] ++ repeat false k
      ++ be_bits 64 (Z.of_nat (length (to_binary [256%N]))) /\
    ((length (to_binary [256%N]) + 1 + k) mod 512 = 448)%nat /\
    (forall k', (k' < k)%nat -> ((length (to_binary [256%N]) + 1 + k') mod 512 <> 448)%nat) /\
    (length (pad_message (to_binary [256%N])) mod 512 = 0)%nat.
Proof.
  assert (Hb : Z.of_nat (length (to_binary [256%N])) < 2 ^ 64) by (vm_compute; reflexivity).
  split; [exact Hb|]. exact (pad_message_any_bits _ Hb).
Defined.

(** A message of [L] bytes ([8L < 2^64]) is hashed in [(L + 8) / 64 + 1]
    chunks: one chunk up to 55 bytes, two from 56. *)
Theorem sha256_chunk_count msg :
  Forall (fun c => (c < 256)%N) msg ->
  Z.of_nat (8 * length msg) < 2 ^ 64 ->
  length (create_chunks (pad_message (to_binary msg))) = ((length msg + 8) / 64 + 1)%nat.
Proof.
  intros Hbytes Hfit.
  assert (Hlen : length (to_binary msg) = (8 * length msg)%nat)
    by (rewrite to_binary_bytes by exact Hbytes; apply concat_bytes_length).
  assert (Hb : Z.of_nat (length (to_binary msg)) < 2 ^ 64) by (rewrite Hlen; exact Hfit).
  destruct (chunks_aux_slices (length (pad_message (to_binary msg)))
              (pad_message (to_binary msg)) (le_n _)) as [_ [Hc _]].
  unfold create_chunks. rewrite Hc, (pad_message_length _ Hb), Hlen. nlia.
Qed.

Lemma sha256_chunk_count_witness :
  Forall (fun c => (c < 256)%N) (repeat 97%N 56) /\
  Z.of_nat (8 * length (repeat 97%N 56)) < 2 ^ 64 /\
  length (create_chunks (pad_message (to_binary (repeat 97%N 56))))
  = ((length (repeat 97%N 56) + 8) / 64 + 1)%nat.
Proof.
  assert (H1 : Forall (fun c => (c < 256)%N) (repeat 97%N 56))
    by (apply Forall_forall; intros c Hc; apply repeat_spec in Hc; subst c; lia).
  assert (H2 : Z.of_nat (8 * length (repeat 97%N 56)) < 2 ^ 64) by (vm_compute; reflexivity).
  split; [exact H1|]. split; [exact H2|]. exact (sha256_chunk_count _ H1 H2).
Defined.



(** [rightrotate] on a 32-bit word is a 32-bit word whose bit [i] is bit
    [(i + n) mod 32] of [x]; rotating back by [32 - n] restores [x]. *)
Theorem rightrotate_inverse x n :
  word32 x -> 0 < n < 32 ->
  word32 (rightrotate x n) /\
  (forall i, 0 <= i < 32 -> Z.testbit (rightrotate x n) i = Z.testbit x ((i + n) mod 32)) /\
  rightrotate (rightrotate x n) (32 - n) = x.
Proof.
  intros Hx Hn.
  assert (Hw : word32 (rightrotate x n)) by (unfold rightrotate; apply land_mask32_word).
  split; [exact Hw|]. split.
  - intros i Hi. rewrite rightrotate_rotr by assumption. apply rotr_bits; assumption.
  - rewrite (rightrotate_rotr (rightrotate x n)) by (try exact Hw; lia).
    rewrite (rightrotate_rotr x n) in * by assumption.
    apply Z.bits_inj'. intros i Hi. destruct (Z.ltb_spec i 32).
    + rewrite rotr_bits by (try exact Hw; lia). rewrite rotr_bits by (try exact Hx; nlia).
      f_equal. nlia.
    + unfold rotr at 1. rewrite (bits32_high _ i Hx) by lia.
      rewrite Z.lor_spec, Z.shiftr_spec, Z.shiftl_spec by lia.
      rewrite (bits32_high _ _ Hw) by lia. rewrite Z.mod_pow2_bits_high by lia. reflexivity.
Qed.

Lemma rightrotate_inverse_witness :
  word32 0x6a09e667 /\ 0 < 7 < 32 /\
  word32 (rightrotate 0x6a09e667 7) /\
  (forall i, 0 <= i < 32 ->
     Z.testbit (rightrotate 0x6a09e667 7) i = Z.testbit 0x6a09e667 ((i + 7) mod 32)) /\
  rightrotate (rightrotate 0x6a09e667 7) (32 - 7) = 0x6a09e667.
Proof.
  assert (Hx : word32 0x6a09e667) by (unfold word32; lia).
  split; [exact Hx|]. split; [lia|]. exact (rightrotate_inverse _ 7 Hx ltac:(lia)).
Defined.

(** Line 85 is the bitwise choice: bit [i] of [(e & f) ^ (~e & g)] is bit
    [i] of [f] where [e] has a 1, of [g] where it has a 0, for all
    Python integers. *)
Theorem ch_code_bits e f g i :
  Z.testbit (ch_code e f g) i = if Z.testbit e i then Z.testbit f i else Z.testbit g i.
Proof.
  destruct (Z.ltb_spec i 0).
  - rewrite !Z.testbit_neg_r by lia. destruct (Z.testbit e i); reflexivity.
  - unfold ch_code. rewrite Z.lxor_spec, !Z.land_spec, Z.lnot_spec by lia.
    destruct (Z.testbit e i), (Z.testbit f i), (Z.testbit g i); reflexivity.
Qed.

(** Line 89 is the bitwise majority: bit [i] of
    [(a & b) ^ (a & c) ^ (b & c)] is 1 exactly when at least two of the
    bits [i] of [a], [b], [c] are 1. *)
Theorem maj_code_bits a b c i :
  Z.testbit (maj_code a b c) i
  = (Z.testbit a i && Z.testbit b i) || (Z.testbit a i && Z.testbit c i)
    || (Z.testbit b i && Z.testbit c i).
Proof.
  unfold maj_code. rewrite !Z.lxor_spec, !Z.land_spec.
  destruct (Z.testbit a i), (Z.testbit b i), (Z.testbit c i); reflexivity.
Qed.

(** Whatever chunks [for chunk in chunks] is given (also chunks of other
    lengths than 512), when it finishes without error the state is again
    eight 32-bit words. *)
Theorem process_chunks_state_ok H cs H' :
  length H = 8%nat -> Forall word32 H -> process_chunks H cs = Some H' ->
  length H' = 8%nat /\ Forall word32 H'.
Proof.
  unfold process_chunks. revert H. induction cs as [|c cs IH]; intros H Hl HH Hp.
  - cbn in Hp. injection Hp as <-. split; assumption.
  - cbn [fold_left] in Hp. destruct (create_words c) as [W|] eqn:Ec.
    + rewrite (compress_eq H c W Hl HH Ec) in Hp.
      destruct (compress_spec_ok H W) as [Hl' HH'].
      exact (IH _ Hl' HH' Hp).
    + assert (Hc : compress H c = None) by (unfold compress; rewrite Ec; reflexivity).
      rewrite Hc, process_chunks_from_none in Hp. discriminate.
Qed.

Lemma process_chunks_state_ok_witness :
  length H_init = 8%nat /\ Forall word32 H_init /\
  exists H', process_chunks H_init [repeat true 500] = Some H' /\
    length H' = 8%nat /\ Forall word32 H'.
Proof.
  destruct H_init_ok as [Hl HH]. split; [exact Hl|]. split; [exact HH|].
  eexists. split; [vm_compute; reflexivity|].
  apply (process_chunks_state_ok H_init [repeat true 500]); [exact Hl|exact HH|].
  vm_compute. reflexivity.
Defined.
